(** * Explained-variance analysis of a PCA model

    A shallow embedding of the numerical core of [Activity-dr_pca.ipynb]:
    the centering step, the covariance matrix [X_cov], the variance-profile
    transform [percvar] and the component-count selector [perck].

    Numbers.  The notebook computes on NumPy [float64] arrays.  The code is
    embedded twice.

    - In exact arithmetic ([float], [fadd], [fdiv], ..., [percvar]): a
      finite array entry is a rational ([Qc], the canonical rationals, so
      that equal numbers are equal terms) and finite operands give the
      exact result, with no rounding, no overflow and no underflow.  The
      infinities and NaN of IEEE arithmetic are kept: they arise from a
      division by zero and every later operation propagates them.  There
      is one zero (every divisor in the notebook is a sum of absolute
      values or an integer, never a negative zero).  This is the code up
      to rounding; comparisons, sorting, shapes and NaN behave as in the
      program.

    - In binary64 ([fadd64], [fdiv64], ..., [percvar64]): the entries are
      IEEE 754 double-precision numbers and every operation rounds to
      nearest even, overflows and underflows as the hardware does.  This
      is the arithmetic of the program; it decides what the code returns
      on a given input. *)

From Stdlib Require Import QArith Qcanon Qcabs SpecFloat.
From stdpp Require Import base decidable numbers list sorting.

(** * Part I: the embedding *)

(** ** Array entries *)

Inductive float : Type :=
  | Fin (q : Qc)
  | PInf
  | NInf
  | NaN.

Global Instance float_eq_dec : EqDecision float.
Proof. solve_decision. Defined.

Definition is_nan (x : float) : Prop := x = NaN.

Definition is_finite (x : float) : Prop :=
  match x with Fin _ => True | _ => False end.

Global Instance is_nan_dec x : Decision (is_nan x).
Proof. unfold is_nan. apply _. Defined.

(** A Python [int] used as a float. *)
Definition of_int (z : Z) : float := Fin (Qc_of_Z z).

(** [inf_of b] is the infinity whose sign bit is [b] ([true]: negative). *)
Definition inf_of (negative : bool) : float :=
  if negative then NInf else PInf.

Local Open Scope Qc_scope.

(** [np.abs] on one entry. *)
Definition fabs (x : float) : float :=
  match x with
  | Fin q => Fin (Qcabs q)
  | PInf | NInf => PInf
  | NaN => NaN
  end.

(** [- x]. *)
Definition fneg (x : float) : float :=
  match x with
  | Fin q => Fin (- q)
  | PInf => NInf
  | NInf => PInf
  | NaN => NaN
  end.

(** [x + y] in exact arithmetic: finite operands give the rational sum (no
    rounding, no overflow; [fadd64] is the binary64 addition); the sum of
    opposite infinities is NaN. *)
Definition fadd (x y : float) : float :=
  match x, y with
  | Fin a, Fin b => Fin (a + b)
  | NaN, _ | _, NaN => NaN
  | PInf, NInf | NInf, PInf => NaN
  | PInf, _ | _, PInf => PInf
  | NInf, _ | _, NInf => NInf
  end.

(** [x - y]. *)
Definition fsub (x y : float) : float := fadd x (fneg y).

(** [x * y] in exact arithmetic: finite operands give the rational product
    (no rounding, overflow or underflow; [fmul64] is the binary64 product);
    an infinity times zero is NaN. *)
Definition fmul (x y : float) : float :=
  match x, y with
  | Fin a, Fin b => Fin (a * b)
  | NaN, _ | _, NaN => NaN
  | Fin a, PInf | PInf, Fin a =>
      if decide (a = 0) then NaN else inf_of (bool_decide (a < 0))
  | Fin a, NInf | NInf, Fin a =>
      if decide (a = 0) then NaN else inf_of (bool_decide (0 < a))
  | PInf, PInf | NInf, NInf => PInf
  | PInf, NInf | NInf, PInf => NInf
  end.

(** [x / y] in exact arithmetic: a finite quotient is the rational quotient
    (no rounding or underflow; [fdiv64] is the binary64 division).  NumPy
    does not raise on a zero divisor, it warns and yields NaN for [0/0] and
    an infinity for any other numerator. *)
Definition fdiv (x y : float) : float :=
  match x, y with
  | NaN, _ | _, NaN => NaN
  | Fin a, Fin b =>
      if decide (b = 0)
      then if decide (a = 0) then NaN else inf_of (bool_decide (a < 0))
      else Fin (a / b)
  | Fin _, (PInf | NInf) => Fin 0
  | (PInf | NInf), (PInf | NInf) => NaN
  | PInf, Fin b => inf_of (bool_decide (b < 0))
  | NInf, Fin b => inf_of (bool_decide (0 ≤ b))
  end.

(** The comparison [x <= y] of the language: false as soon as one side is
    NaN. *)
Definition float_le (x y : float) : Prop :=
  match x, y with
  | NaN, _ | _, NaN => False
  | Fin a, Fin b => a ≤ b
  | NInf, _ => True
  | _, PInf => True
  | _, _ => False
  end.

(** [x >= y]. *)
Definition float_ge (x y : float) : Prop := float_le y x.

Global Instance float_le_dec : RelDecision float_le.
Proof. intros [a| | |] [b| | |]; simpl; apply _. Defined.

Global Instance float_ge_dec : RelDecision float_ge.
Proof. intros x y. unfold float_ge. apply _. Defined.

(** The order [np.sort] sorts by: the numeric order, with NaN after every
    number. *)
Definition sort_le (x y : float) : Prop :=
  match x, y with
  | _, NaN => True
  | NaN, _ => False
  | NInf, _ => True
  | _, NInf => False
  | _, PInf => True
  | PInf, _ => False
  | Fin a, Fin b => a ≤ b
  end.

Global Instance sort_le_dec : RelDecision sort_le.
Proof. intros [a| | |] [b| | |]; simpl; apply _. Defined.

Local Close Scope Qc_scope.

(** ** One-dimensional arrays *)

Definition np_abs (v : list float) : list float := fabs <$> v.

(** [np.sort(v)]: ascending.  Which algorithm sorts does not matter:
    [sort_le] is a total order, so the sorted array is unique (lemma
    [merge_sort_unique] below). *)
Definition np_sort (v : list float) : list float := merge_sort sort_le v.

(** [np.sum(v)] in exact arithmetic, where the order of the additions does
    not matter; the sum of the empty array is [0.0]. *)
Definition np_sum (v : list float) : float := foldr fadd (Fin 0%Qc) v.

(** [v / d], the scalar [d] broadcast over the array. *)
Definition np_div (v : list float) (d : float) : list float :=
  (λ x, fdiv x d) <$> v.


(** [v ** 2]. *)
Definition np_square (v : list float) : list float :=
  (λ x, fmul x x) <$> v.

(** The running sum started from [acc]. *)
Fixpoint cumsum_from (acc : float) (v : list float) : list float :=
  match v with
  | [] => []
  | x :: v' => fadd acc x :: cumsum_from (fadd acc x) v'
  end.

(** [np.cumsum(v)]. *)
Definition np_cumsum (v : list float) : list float :=
  cumsum_from (Fin 0%Qc) v.

(** ** Two-dimensional arrays

    A matrix is the list of its rows; the rows of an array all have the
    same length. *)

Definition matrix : Type := list (list float).

(** [X.shape[0]] and [X.shape[1]]. *)
Definition shape0 (X : matrix) : nat := length X.
Definition shape1 (X : matrix) : nat := from_option length 0 (head X).

(** [X[:, j]]. *)
Definition column (X : matrix) (j : nat) : list float :=
  (λ row, default (Fin 0%Qc) (row !! j)) <$> X.

(** [X.T]. *)
Definition transpose (X : matrix) : matrix := column X <$> seq 0 (shape1 X).

(** The inner product of two arrays. *)
Definition vdot (u v : list float) : float := np_sum (zip_with fmul u v).

(** [A.dot(B)], for operands whose shapes agree (NumPy raises on the
    others; here entries beyond the shorter operand are ignored). *)
Definition dot (A B : matrix) : matrix :=
  (λ row, vdot row <$> transpose B) <$> A.

(** [A / d]. *)
Definition mat_div (A : matrix) (d : float) : matrix :=
  (λ row, np_div row d) <$> A.

(** The [n] by [d] matrix with [s] on its diagonal and zero elsewhere. *)
Definition rect_diag (n d : nat) (s : list float) : matrix :=
  (λ i, (λ j, if decide (i = j) then default (Fin 0%Qc) (s !! i)
              else Fin 0%Qc) <$> seq 0 d) <$> seq 0 n.

(** [np.diag(w)] and [np.eye(n)]. *)
Definition np_diag (w : list float) : matrix :=
  rect_diag (length w) (length w) w.
Definition np_eye (n : nat) : matrix := np_diag (replicate n (Fin 1%Qc)).

(** ** Centering and covariance

<<
means = np.mean(X_std, axis=0)
X_sm = X_std - means
X_cov = X_sm.T.dot(X_sm) / (X_sm.shape[0] - 1)
>> *)
Definition means (X_std : matrix) : list float :=
  (λ col, fdiv (np_sum col) (of_int (Z.of_nat (shape0 X_std))))
    <$> transpose X_std.

Definition X_sm (X_std : matrix) : matrix :=
  (λ row, zip_with fsub row (means X_std)) <$> X_std.

Definition X_cov (X : matrix) : matrix :=
  mat_div (dot (transpose X) X) (of_int (Z.of_nat (shape0 X) - 1)).

(** A matrix is centered when the mean of each of its columns is zero. *)
Definition centered (X : matrix) : Prop :=
  means X = replicate (shape1 X) (Fin 0%Qc).

Global Instance centered_dec X : Decision (centered X).
Proof. unfold centered. apply _. Defined.

(** ** The decompositions

    [np.linalg.eig] and [np.linalg.svd] are library routines; they enter
    through their documented contracts. *)

(** [w, V = np.linalg.eig(A)]: each column [V[:, i]] has unit length and is
    an eigenvector of [A] for [w[i]], and the columns are independent, so
    that [w] lists every eigenvalue with its multiplicity. *)
Definition np_linalg_eig (A : matrix) (w : list float) (V : matrix) : Prop :=
  length w = shape0 A ∧
  dot A V = dot V (np_diag w) ∧
  Forall (λ col, vdot col col = Fin 1%Qc) (transpose V) ∧
  ∃ Vinv, dot V Vinv = np_eye (shape0 A) ∧ dot Vinv V = np_eye (shape0 A).

(** [U, s, Vh = np.linalg.svd(X)]: [U] and [Vh] are orthogonal, [s] holds
    [min(n, d)] non-negative numbers in non-increasing order, and
    [X = U . diag(s) . Vh]. *)
Definition np_linalg_svd (X U : matrix) (s : list float) (Vh : matrix) : Prop :=
  let n := shape0 X in
  let d := shape1 X in
  dot (dot U (rect_diag n d s)) Vh = X ∧
  dot (transpose U) U = np_eye n ∧ dot U (transpose U) = np_eye n ∧
  dot (transpose Vh) Vh = np_eye d ∧ dot Vh (transpose Vh) = np_eye d ∧
  length s = n `min` d ∧
  Forall (float_le (Fin 0%Qc)) s ∧ Sorted (flip float_le) s.

(** The eigenvalues recovered from the singular values ("scaled singular
    values"): [s**2/(X_sm.shape[0]-1)]. *)
Definition scaled_singular_values (s : list float) (X : matrix) : list float :=
  np_div (np_square s) (of_int (Z.of_nat (shape0 X) - 1)).

(** The array the notebook feeds to [percvar] in its last comparison:
    [eig_vals_svd = np.sort(np.abs(eig_vals))[::-1]]. *)
Definition eig_vals_svd (eig_vals : list float) : list float :=
  reverse (np_sort (np_abs eig_vals)).

(** ** The variance-profile transform

<<
def percvar(v):
    s = np.sort(np.abs(v))
    s = s[::-1]
    s = s/np.sum(s)
    return s, np.cumsum(s)
>> *)
Definition percvar (v : list float) : list float * list float :=
  let s := np_sort (np_abs v) in
  let s := reverse s in
  let s := np_div s (np_sum s) in
  (s, np_cumsum s).

(** ** The component-count selector

<<
def perck(s, p):
    count = 0
    for i in range(len(s)):
        if(s[i] >= p):
            count = i
            break
    return count
>>

    [perck_loop] is the [for] loop entered at index [i], with the entries
    [s[i:]] still to visit and the current value of [count]. *)
Fixpoint perck_loop (s : list float) (p : float) (i count : nat) : nat :=
  match s with
  | [] => count
  | x :: s' =>
      if decide (float_ge x p) then i (* count = i; break *)
      else perck_loop s' p (S i) count
  end.

Definition perck (s : list float) (p : float) : nat := perck_loop s p 0 0.

(** ** The same code in binary64

    [percvar] once more, on IEEE 754 binary64 numbers: [spec_float] with a
    53-bit mantissa and maximal exponent 1024, every operation rounded to
    nearest even.  It differs from the arithmetic above on finite operands
    only, where it rounds, overflows to an infinity and underflows to
    zero. *)

Global Instance spec_float_eq_dec : EqDecision spec_float.
Proof. solve_decision. Defined.




Definition is_nan64 (x : spec_float) : bool :=
  match x with S754_nan => true | _ => false end.

(** The order [np.sort] sorts by, NaN last. *)
Definition sort_le64 (x y : spec_float) : Prop :=
  if is_nan64 y then True
  else if is_nan64 x then False
  else Is_true (SFleb x y).

Global Instance sort_le64_dec : RelDecision sort_le64.
Proof.
  intros x y. unfold sort_le64. destruct (is_nan64 y), (is_nan64 x); apply _.
Defined.









(** ** Data of the scenarios *)

(** The rational [n/d]. *)
Definition frac (n : Z) (d : positive) : float := Fin (Q2Qc (n # d)).

(** The matrix whose entries are [z/d] for the integers [z] given. *)
Definition rows (d : positive) (zs : list (list Z)) : matrix :=
  (λ r : list Z, (λ z, frac z d) <$> r) <$> zs.

(** The eigenvalues of the wine covariance matrix, to three decimals. *)
Definition wine_eig_vals : list float :=
  (λ z, frac z 1000) <$>
    [4732; 2511; 1454; 924; 858; 645; 554; 104; 350; 170; 291; 227; 252]%Z.

(** Its cumulative vector: [pct, pv = percvar(eig_vals)]. *)
Definition wine_pv : list float := (percvar wine_eig_vals).2.

(** A centered 4 by 2 matrix with orthogonal columns of lengths 2 and 4,
    with its two decompositions. *)
Definition X4 : matrix := rows 1 [[1; 2]; [-1; 2]; [1; -2]; [-1; -2]]%Z.

Definition X4_eig_vals : list float := [frac 4 3; frac 16 3].
Definition X4_eig_vecs : matrix := rows 1 [[1; 0]; [0; 1]]%Z.

Definition X4_U : matrix :=
  rows 2 [[1; 1; 1; 1]; [1; -1; 1; -1]; [-1; 1; 1; -1]; [-1; -1; 1; 1]]%Z.
Definition X4_s : list float := [frac 4 1; frac 2 1].
Definition X4_Vh : matrix := rows 1 [[0; 1]; [1; 0]]%Z.




(** ** Real vectors

    The arithmetic of [percvar] on an array without infinities and NaN,
    written on the rationals.  These definitions are proof devices: lemma
    [percvar_Fin] relates them to [percvar]. *)






(** ** Arrays

    A list of rows is an array when its rows all have the length of the
    first one. *)
Definition rectangular (X : matrix) : Prop :=
  Forall (λ row, length row = shape1 X) X.

Global Instance rectangular_dec X : Decision (rectangular X).
Proof. unfold rectangular. apply _. Defined.

(** * Part II: properties *)

(** Closed goals about concrete arrays are decided by evaluation. *)
Ltac by_evaluation := apply (bool_decide_unpack _); vm_compute; exact I.

(** ** Order *)

Global Instance Fin_inj : Inj (=) (=) Fin.
Proof. by intros x y [= ->]. Qed.

Global Instance float_le_transitive : Transitive float_le.
Proof.
  intros [a| | |] [b| | |] [c| | |]; simpl; try done. apply Qcle_trans.
Qed.

Global Instance sort_le_transitive : Transitive sort_le.
Proof.
  intros [a| | |] [b| | |] [c| | |]; simpl; try done. apply Qcle_trans.
Qed.

Global Instance sort_le_antisymm : AntiSymm (=) sort_le.
Proof.
  intros [a| | |] [b| | |]; simpl; try done.
  intros Hab Hba. f_equal. by apply Qcle_antisym.
Qed.

Global Instance sort_le_total : Total sort_le.
Proof.
  intros [a| | |] [b| | |]; simpl; auto. destruct (total Qcle a b); auto.
Qed.

Section sorting.
Context {A B : Type} (R1 : relation A) (R2 : relation B).
Context `{!RelDecision R1, !Total R1}.
Context `{!RelDecision R2, !Total R2, !Transitive R2, !AntiSymm (=) R2}.

(** A sorted permutation of [l] is [merge_sort l]. *)
Lemma merge_sort_unique (l l' : list B) :
  Sorted R2 l' → l' ≡ₚ l → merge_sort R2 l = l'.
Proof.
  intros Hsorted Hperm. apply (Sorted_unique R2).
  - apply (Sorted_merge_sort R2).
  - done.
  - by rewrite merge_sort_Permutation.
Qed.

(** Sorting sees its input as a multiset. *)
Lemma merge_sort_Permutation_eq (l l' : list B) :
  l ≡ₚ l' → merge_sort R2 l = merge_sort R2 l'.
Proof.
  intros Hperm. apply merge_sort_unique.
  - apply (Sorted_merge_sort R2).
  - by rewrite merge_sort_Permutation.
Qed.


End sorting.

(** ** The selector [perck] *)

Section perck.
Implicit Types (pv s : list float) (p x y : float) (i j count : nat).

(** The loop is a search for the first entry that is [>= p]; it leaves
    [count] untouched when there is none. *)
Lemma perck_loop_list_find s p i count :
  perck_loop s p i count =
    from_option (λ jx, i + jx.1) count (list_find (λ x, float_ge x p) s).
Proof.
  revert i. induction s as [|x s IH]; intros i; simpl; [done|].
  destruct (decide (float_ge x p)); simpl; [lia|].
  rewrite IH. destruct (list_find _ s) as [[j y]|]; simpl; [lia|done].
Qed.

Lemma perck_list_find s p :
  perck s p = from_option fst 0 (list_find (λ x, float_ge x p) s).
Proof.
  unfold perck. rewrite perck_loop_list_find.
  by destruct (list_find _ s) as [[j y]|].
Qed.

Lemma perck_not_found s p :
  (∀ i x, s !! i = Some x → ¬ float_ge x p) → perck s p = 0.
Proof.
  intros Hno. rewrite perck_list_find.
  rewrite (proj2 (list_find_None _ s)); [done|].
  apply Forall_lookup. intros i x Hi. by apply (Hno i).
Qed.

Lemma perck_satisfiable s p :
  (∃ i x, s !! i = Some x ∧ float_ge x p) →
  ∃ x, s !! perck s p = Some x ∧ float_ge x p ∧
       ∀ j y, s !! j = Some y → j < perck s p → ¬ float_ge y p.
Proof.
  intros (i & x & Hi & Hx). rewrite perck_list_find.
  destruct (list_find (λ x, float_ge x p) s) as [[j y]|] eqn:Hfind; simpl.
  - apply list_find_Some in Hfind as (Hj & Hy & Hmin). eauto.
  - apply list_find_None in Hfind.
    by destruct (proj1 (Forall_lookup _ _) Hfind i x Hi).
Qed.

Lemma perck_head x s p : float_ge x p → perck (x :: s) p = 0.
Proof. intros Hx. unfold perck; simpl. by rewrite decide_True. Qed.

End perck.

(** C1.  When some entry of the cumulative vector is [>= p], [perck] returns
    the smallest index [i] with [pv[i] >= p].  The value is that zero-based
    index itself, not [i + 1]: a threshold already met by the first entry
    yields [0]. *)
Theorem perck_smallest_index (pv : list float) (p : float) :
  (∃ i x, pv !! i = Some x ∧ float_ge x p) →
  (∃ x, pv !! perck pv p = Some x ∧ float_ge x p ∧
        ∀ j y, pv !! j = Some y → j < perck pv p → ¬ float_ge y p) ∧
  (∀ x, pv !! 0 = Some x → float_ge x p → perck pv p = 0).
Proof.
  intros Hsat. split.
  - by apply perck_satisfiable.
  - intros x0 H0 Hx0. destruct pv as [|? pv]; simplify_eq/=.
    by apply perck_head.
Qed.

Lemma perck_smallest_index_witness :
  let pv := [frac 1 2; frac 3 4; frac 1 1] in
  let p := frac 7 10 in
  (∃ x, pv !! perck pv p = Some x ∧ float_ge x p ∧
        ∀ j y, pv !! j = Some y → j < perck pv p → ¬ float_ge y p) ∧
  (∀ x, pv !! 0 = Some x → float_ge x p → perck pv p = 0).
Proof.
  apply (perck_smallest_index [frac 1 2; frac 3 4; frac 1 1] (frac 7 10)).
  exists 1, (frac 3 4). split; [reflexivity|]. vm_compute. discriminate.
Defined.

(** C3 (as stated, refuted).  An unsatisfiable threshold does not produce an
    outcome of its own: no entry of [[1/2; 1]] reaches [2], the first entry
    already reaches [1/4], and [perck] answers [0] to both. *)
Lemma perck_unsatisfiable_not_distinct :
  let pv := [frac 1 2; frac 1 1] in
  Forall (λ x, ¬ float_ge x (frac 2 1)) pv ∧
  (∃ x, pv !! 0 = Some x ∧ float_ge x (frac 1 4)) ∧
  perck pv (frac 2 1) = 0 ∧
  perck pv (frac 2 1) = perck pv (frac 1 4).
Proof.
  split; [by_evaluation|]. split; [|split; by_evaluation].
  exists (frac 1 2). split; [done|]. by_evaluation.
Qed.

(** C3 (amended).  When no entry of the cumulative vector is [>= p], [perck]
    returns [0], the initial value of [count]. *)
Theorem perck_unsatisfiable (pv : list float) (p : float) :
  (∀ i x, pv !! i = Some x → ¬ float_ge x p) → perck pv p = 0.
Proof. apply perck_not_found. Qed.

Lemma perck_unsatisfiable_witness :
  perck [frac 1 2; frac 1 1] (frac 2 1) = 0.
Proof.
  apply (perck_unsatisfiable [frac 1 2; frac 1 1] (frac 2 1)).
  intros [|[|i]] x [= <-]; vm_compute; tauto.
Defined.

(** C4 (as stated, refuted).  With [pv = [1/2; 1]], the thresholds
    [3/4 <= 2] give [perck pv (3/4) = 1] and [perck pv 2 = 0]. *)
Lemma perck_not_monotone :
  let pv := [frac 1 2; frac 1 1] in
  float_le (frac 3 4) (frac 2 1) ∧
  perck pv (frac 3 4) = 1 ∧ perck pv (frac 2 1) = 0 ∧
  ¬ perck pv (frac 3 4) ≤ perck pv (frac 2 1).
Proof. repeat split; by_evaluation. Qed.

(** C4 (amended).  For thresholds [p1 <= p2] such that some entry of the
    cumulative vector is [>= p2], [perck pv p1 <= perck pv p2]. *)
Theorem perck_monotone (pv : list float) (p1 p2 : float) :
  float_le p1 p2 →
  (∃ i x, pv !! i = Some x ∧ float_ge x p2) →
  perck pv p1 ≤ perck pv p2.
Proof.
  intros Hp Hsat.
  destruct (perck_satisfiable pv p2 Hsat) as (x & Hx & Hge & _).
  assert (float_ge x p1) as Hge1 by (unfold float_ge in *; by etrans).
  rewrite (perck_list_find pv p1).
  destruct (list_find (λ x, float_ge x p1) pv) as [[j y]|] eqn:Hfind; simpl;
    [|lia].
  apply list_find_Some in Hfind as (_ & _ & Hmin).
  destruct (decide (j ≤ perck pv p2)) as [|Hlt]; [done|].
  destruct (Hmin _ _ Hx); [lia|done].
Qed.

Lemma perck_monotone_witness :
  perck [frac 1 2; frac 1 1] (frac 1 4) ≤ perck [frac 1 2; frac 1 1] (frac 3 4).
Proof.
  apply (perck_monotone [frac 1 2; frac 1 1] (frac 1 4) (frac 3 4)).
  - vm_compute. discriminate.
  - exists 1, (frac 1 1). split; [reflexivity|]. vm_compute. discriminate.
Defined.

(** C10.  On the empty cumulative vector the loop body never runs and
    [perck] returns [0] for every threshold: the value it also returns when
    the first entry of a non-empty vector meets the threshold. *)
Theorem perck_empty (p : float) :
  perck [] p = 0 ∧
  ∀ x pv p', float_ge x p' → perck (x :: pv) p' = perck [] p.
Proof. split; [done|]. intros x pv p' Hx. by apply perck_head. Qed.

Lemma perck_empty_witness :
  perck [] (frac 9 10) = 0 ∧
  perck [frac 1 1; frac 1 1] (frac 9 10) = perck [] (frac 9 10).
Proof.
  destruct (perck_empty (frac 9 10)) as [H0 Hsame]. split; [exact H0|].
  apply Hsame. vm_compute. discriminate.
Defined.

(** ** Real vectors *)

Section real_vectors.
Local Open Scope Qc_scope.
Implicit Types (v l : list Qc) (a c d x y : Qc).









(** *** Arithmetic *)

Lemma Qcplus_nonneg_eq_0 x y : 0 ≤ x → 0 ≤ y → x + y = 0 → x = 0 ∧ y = 0.
Proof.
  intros Hx Hy Hsum.
  assert (x = 0) as ->.
  { apply Qcle_antisym; [|done]. rewrite <-Hsum, <-(Qcplus_0_r x) at 1.
    by apply Qcplus_le_mono_l. }
  by rewrite Qcplus_0_l in Hsum.
Qed.










(** *** Magnitudes *)









(** *** Percentages *)





(** *** Running sums *)





(** *** Scaling *)




End real_vectors.

(** ** The profile of a real vector *)







(** ** Magnitudes that sum to zero *)

Section zero_sum.
Local Open Scope Qc_scope.
Implicit Types (v : list float) (x acc : float) (n : nat).

(** A sum of absolute values is a non-negative number, [+inf] or NaN. *)
Lemma np_sum_abs_shape v :
  match np_sum (np_abs v) with
  | Fin r => 0 ≤ r
  | NInf => False
  | PInf | NaN => True
  end.
Proof.
  induction v as [|x v IH]; [done|].
  change (np_sum (np_abs (x :: v)))
    with (fadd (fabs x) (np_sum (np_abs v))).
  destruct (np_sum (np_abs v)) as [r| | |], x as [q| | |]; simpl; try done.
  apply Qcplus_nonneg_nonneg; [apply Qcabs_nonneg|done].
Qed.

(** It is the number zero only for an array of zeros. *)
Lemma np_sum_abs_eq_0 v :
  np_sum (np_abs v) = Fin 0 → v = replicate (length v) (Fin 0).
Proof.
  induction v as [|x v IH]; [done|].
  change (np_sum (np_abs (x :: v)))
    with (fadd (fabs x) (np_sum (np_abs v))).
  pose proof (np_sum_abs_shape v) as Hshape.
  destruct (np_sum (np_abs v)) as [r| | |], x as [q| | |]; simpl; try done.
  intros Hsum%(inj Fin).
  apply Qcplus_nonneg_eq_0 in Hsum as [Hq ->]; [|apply Qcabs_nonneg|done].
  apply Qcabs_null in Hq as ->. by rewrite <-IH.
Qed.

Lemma np_sum_zeros n : np_sum (replicate n (Fin 0)) = Fin 0.
Proof.
  induction n as [|n IH]; [done|].
  change (fadd (Fin 0) (np_sum (replicate n (Fin 0))) = Fin 0).
  rewrite IH. simpl. by rewrite Qcplus_0_l.
Qed.

Lemma np_sort_replicate n x : np_sort (replicate n x) = replicate n x.
Proof.
  symmetry. apply replicate_Permutation. unfold np_sort.
  by rewrite merge_sort_Permutation.
Qed.

Lemma cumsum_from_nans acc n :
  cumsum_from acc (replicate n NaN) = replicate n NaN.
Proof.
  revert acc. induction n as [|n IH]; intros acc; [done|].
  simpl. rewrite IH. by destruct acc.
Qed.

Lemma percvar_zeros n :
  percvar (replicate n (Fin 0)) = (replicate n NaN, replicate n NaN).
Proof.
  unfold percvar, np_abs. rewrite fmap_replicate. simpl.
  rewrite (Qcabs_pos 0) by done.
  rewrite np_sort_replicate, reverse_replicate, np_sum_zeros.
  unfold np_div. rewrite fmap_replicate. simpl.
  unfold np_cumsum. by rewrite cumsum_from_nans.
Qed.

End zero_sum.

(** C6 (as stated, refuted).  The magnitudes of the empty vector sum to
    zero, and [percvar] returns two empty vectors for it: no error, and no
    NaN in either of them. *)
Lemma percvar_empty_silent :
  np_sum (np_abs []) = Fin 0%Qc ∧
  percvar [] = ([], []) ∧
  ¬ Exists is_nan (percvar []).1 ∧ ¬ Exists is_nan (percvar []).2.
Proof.
  split; [done|]. split; [done|]. split; by intros ?%Exists_nil.
Qed.

(** C6 (amended).  For an input whose absolute values sum to zero,
    [percvar] raises no error and returns two vectors of the input's length
    in which every entry is NaN. *)
Theorem percvar_zero_sum (v : list float) :
  np_sum (np_abs v) = Fin 0%Qc →
  percvar v = (replicate (length v) NaN, replicate (length v) NaN) ∧
  Forall is_nan (percvar v).1 ∧ Forall is_nan (percvar v).2.
Proof.
  intros Hsum. rewrite (np_sum_abs_eq_0 v Hsum), percvar_zeros.
  rewrite length_replicate. split; [done|].
  split; by apply Forall_replicate.
Qed.

Lemma percvar_zero_sum_witness :
  let v := [Fin 0%Qc; Fin 0%Qc; Fin 0%Qc] in
  percvar v = (replicate (length v) NaN, replicate (length v) NaN) ∧
  Forall is_nan (percvar v).1 ∧ Forall is_nan (percvar v).2.
Proof.
  apply (percvar_zero_sum [Fin 0%Qc; Fin 0%Qc; Fin 0%Qc]).
  by_evaluation.
Defined.

(** ** The two paths to the spectrum *)

(** [percvar] takes absolute values and sorts first: it depends on the
    multiset of the magnitudes only, and so on the multiset of the entries
    only. *)
Lemma percvar_abs_Permutation (v w : list float) :
  np_abs v ≡ₚ np_abs w → percvar v = percvar w.
Proof.
  intros Hperm. unfold percvar.
  assert (np_sort (np_abs v) = np_sort (np_abs w)) as ->; [|done].
  by apply (merge_sort_Permutation_eq sort_le).
Qed.

Lemma percvar_Permutation (v w : list float) :
  v ≡ₚ w → percvar v = percvar w.
Proof.
  intros Hperm. apply percvar_abs_Permutation. unfold np_abs. by rewrite Hperm.
Qed.

Lemma fabs_idemp (x : float) : fabs (fabs x) = fabs x.
Proof.
  destruct x as [q| | |]; simpl; try done.
  by rewrite (Qcabs_pos (Qcabs q)) by apply Qcabs_nonneg.
Qed.

(** The comparison the notebook prints ([PC_Covarience == PC_SVD],
    [PV_Covarience == PV_SVD]) holds for every input: sorting the absolute
    values beforehand changes nothing. *)
Lemma percvar_eig_vals_svd (eig_vals : list float) :
  percvar (eig_vals_svd eig_vals) = percvar eig_vals.
Proof.
  apply percvar_abs_Permutation. unfold eig_vals_svd, np_sort.
  assert (np_abs (np_abs eig_vals) = np_abs eig_vals) as Hidemp.
  { unfold np_abs. rewrite <-list_fmap_compose. apply list_fmap_ext.
    intros i x _. apply fabs_idemp. }
  rewrite <-Hidemp at 2. unfold np_abs at 1 3. apply fmap_Permutation.
  by rewrite reverse_Permutation, merge_sort_Permutation.
Qed.

(** The example matrix is centered, and the arrays given with it are an
    eigendecomposition of its covariance matrix and a singular value
    decomposition of the matrix itself. *)
Lemma X4_centered : centered X4 ∧ 1 < shape0 X4.
Proof. split; by_evaluation. Qed.

Lemma X4_centering : X_sm X4 = X4.
Proof. by_evaluation. Qed.

Lemma X4_cov : X_cov X4 = rows 3 [[4; 0]; [0; 16]]%Z.
Proof. by_evaluation. Qed.

Lemma X4_eig : np_linalg_eig (X_cov X4) X4_eig_vals X4_eig_vecs.
Proof.
  split; [by_evaluation|]. split; [by_evaluation|]. split; [by_evaluation|].
  exists (np_eye 2). split; by_evaluation.
Qed.

Lemma X4_svd : np_linalg_svd X4 X4_U X4_s X4_Vh.
Proof. unfold np_linalg_svd. repeat split; by_evaluation. Qed.

Lemma X4_scaled_singular_values :
  scaled_singular_values X4_s X4 = [frac 16 3; frac 4 3].
Proof. by_evaluation. Qed.

Lemma np_sort_Permutation (v : list float) : np_sort v ≡ₚ v.
Proof. apply merge_sort_Permutation. Qed.

Lemma percvar_fst_length (v : list float) : length (percvar v).1 = length v.
Proof.
  unfold percvar, np_div, np_abs; simpl.
  by rewrite length_fmap, length_reverse, np_sort_Permutation, length_fmap.
Qed.


(** The contracts fix the lengths of the two spectra: [d] eigenvalues for
    the [d] by [d] covariance matrix, [min(n, d)] singular values. *)
Lemma np_linalg_lengths (X : matrix) (eig_vals : list float)
    (eig_vecs U : matrix) (s : list float) (Vh : matrix) :
  np_linalg_eig (X_cov X) eig_vals eig_vecs → np_linalg_svd X U s Vh →
  length eig_vals = shape0 (X_cov X) ∧ length s = shape0 X `min` shape1 X.
Proof.
  intros (Hw & _) (_ & _ & _ & _ & _ & Hs & _). by split.
Qed.





(** C8.  There is a centered matrix with more than one row, here [X4], for
    which [percvar] applied to the raw absolute singular values returns a
    percentage vector and a cumulative vector that both differ from those
    of the covariance-eigenvalue path, while the scaled squared singular
    values give the vectors of that path. *)
Theorem raw_singular_values_differ :
  ∃ (X : matrix) (eig_vals : list float) (eig_vecs U : matrix)
    (s : list float) (Vh : matrix),
    centered X ∧ 1 < shape0 X ∧
    np_linalg_eig (X_cov X) eig_vals eig_vecs ∧
    np_linalg_svd X U s Vh ∧
    (percvar (np_abs s)).1 ≠ (percvar eig_vals).1 ∧
    (percvar (np_abs s)).2 ≠ (percvar eig_vals).2 ∧
    percvar (scaled_singular_values s X) = percvar eig_vals.
Proof.
  exists X4, X4_eig_vals, X4_eig_vecs, X4_U, X4_s, X4_Vh.
  split; [apply X4_centered|]. split; [apply X4_centered|].
  split; [apply X4_eig|]. split; [apply X4_svd|].
  repeat split; by_evaluation.
Qed.

(** ** The wine scenario *)

(** The model prints what the notebook prints for 40, 60, 80, 90 and 95
    percent: 1, 2, 4, 7 and 9. *)
Example wine_notebook_output :
  (λ p, perck wine_pv (frac p 100)) <$> [40; 60; 80; 90; 95]%Z
  = [1; 2; 4; 7; 9].
Proof. by_evaluation. Qed.

(** C9 (as stated, refuted).  The entry at the 7th position counting from 1
    (index 6) is below [0.90], and the entry at the 1st position (index 0)
    is below [0.40]; [perck] lands on neither. *)
Lemma wine_positions_refuted :
  (wine_pv !! 6 = Some (frac 5839 6536) ∧
   ¬ float_ge (frac 5839 6536) (frac 90 100) ∧
   perck wine_pv (frac 90 100) ≠ 6) ∧
  (wine_pv !! 0 = Some (frac 1183 3268) ∧
   ¬ float_ge (frac 1183 3268) (frac 40 100) ∧
   perck wine_pv (frac 40 100) ≠ 0).
Proof. repeat split; by_evaluation. Qed.

(** C9 (amended).  On the cumulative vector of the wine eigenvalues, [perck]
    with threshold [0.90] returns [7]: the entry of index 7, the 8th
    position counting from 1, is the first one that is [>= 0.90].  With
    threshold [0.40] it returns [1]: the entry of index 1, the 2nd position,
    is the first one that is [>= 0.40]. *)
Theorem wine_selection :
  (perck wine_pv (frac 90 100) = 7 ∧
   wine_pv !! 7 = Some (frac 3007 3268) ∧
   float_ge (frac 3007 3268) (frac 90 100) ∧
   Forall (λ x, ¬ float_ge x (frac 90 100)) (take 7 wine_pv)) ∧
  (perck wine_pv (frac 40 100) = 1 ∧
   wine_pv !! 1 = Some (frac 7243 13072) ∧
   float_ge (frac 7243 13072) (frac 40 100) ∧
   Forall (λ x, ¬ float_ge x (frac 40 100)) (take 1 wine_pv)).
Proof. repeat split; by_evaluation. Qed.

(** * Part III: further properties of the code *)

(** ** More on the selector *)

Lemma StronglySorted_lookup_le {A} (R : relation A) (l : list A) i j x y :
  StronglySorted R l → l !! i = Some x → l !! j = Some y → i < j → R x y.
Proof.
  intros Hsorted. revert i j. induction Hsorted as [|z l _ IH Hz];
    intros i j Hi Hj Hlt; [done|].
  destruct j as [|j]; [lia|]. destruct i as [|i]; simplify_eq/=.
  - rewrite Forall_forall in Hz. apply Hz. by eapply list_elem_of_lookup_2.
  - apply (IH i j); [done..|lia].
Qed.

Section perck_more.
Implicit Types (pv s w : list float) (p x y : float) (i j n : nat).

Lemma perck_lt_length pv p : pv ≠ [] → perck pv p < length pv.
Proof.
  intros Hne. rewrite perck_list_find.
  destruct (list_find (λ x, float_ge x p) pv) as [[j y]|] eqn:Hfind; simpl.
  - apply list_find_Some in Hfind as (Hj & _). by eapply lookup_lt_Some.
  - destruct pv; [done|simpl; lia].
Qed.

Lemma perck_sorted_iff pv p :
  StronglySorted float_le pv →
  (∃ i x, pv !! i = Some x ∧ float_ge x p) →
  ∀ j y, pv !! j = Some y → float_ge y p ↔ perck pv p ≤ j.
Proof.
  intros Hsorted Hsat j y Hj.
  destruct (perck_satisfiable pv p Hsat) as (x & Hx & Hge & Hmin). split.
  - intros Hy. destruct (decide (perck pv p ≤ j)) as [|Hlt]; [done|].
    destruct (Hmin j y Hj); [lia|done].
  - intros Hle. destruct (decide (perck pv p = j)) as [<-|Hne].
    + by simplify_eq.
    + unfold float_ge in *. trans x; [done|].
      apply (StronglySorted_lookup_le float_le pv (perck pv p) j); [done..|lia].
Qed.

Lemma perck_all_nan n p : perck (replicate n NaN) p = 0.
Proof.
  apply perck_not_found. intros i x [-> _]%lookup_replicate.
  unfold float_ge. destruct p; simpl; tauto.
Qed.

End perck_more.

(** X1.  [perck] never returns an index outside its vector: on a non-empty
    vector the result is a valid index, whether the threshold is met or
    not. *)
Theorem perck_in_range (pv : list float) (p : float) :
  pv ≠ [] → perck pv p < length pv.
Proof. apply perck_lt_length. Qed.

Lemma perck_in_range_witness :
  perck [frac 1 2; frac 1 1] (frac 2 1) < length [frac 1 2; frac 1 1].
Proof. by apply (perck_in_range [frac 1 2; frac 1 1] (frac 2 1)). Defined.

(** X2.  On a non-decreasing vector with a satisfiable threshold, the index
    returned by [perck] splits the vector: the entries before it are below
    the threshold and every entry from it on meets the threshold. *)
Theorem perck_sorted_split (pv : list float) (p : float) :
  StronglySorted float_le pv →
  (∃ i x, pv !! i = Some x ∧ float_ge x p) →
  ∀ j y, pv !! j = Some y → float_ge y p ↔ perck pv p ≤ j.
Proof. apply perck_sorted_iff. Qed.

Lemma perck_sorted_split_witness :
  float_ge (frac 1 1) (frac 3 4) ↔
  perck [frac 1 2; frac 3 4; frac 1 1] (frac 3 4) ≤ 2.
Proof.
  apply (perck_sorted_split [frac 1 2; frac 3 4; frac 1 1] (frac 3 4)).
  - by_evaluation.
  - exists 1, (frac 3 4). split; [done|by_evaluation].
  - done.
Defined.

(** X3.  The entries after the first match are never read: once some entry
    of [pv] meets the threshold, appending entries to [pv] does not change
    the result. *)
Theorem perck_app (pv w : list float) (p : float) :
  (∃ i x, pv !! i = Some x ∧ float_ge x p) →
  perck (pv ++ w) p = perck pv p.
Proof.
  intros Hsat.
  destruct (perck_satisfiable pv p Hsat) as (x & Hx & Hge & Hmin).
  rewrite (perck_list_find (pv ++ w)).
  rewrite (proj2 (list_find_Some _ (pv ++ w) (perck pv p) x)); [done|].
  split; [by apply lookup_app_l_Some|]. split; [done|].
  intros j y Hj Hlt. apply (Hmin j y); [|done].
  rewrite lookup_app_l in Hj; [done|].
  apply lookup_lt_Some in Hx. lia.
Qed.

Lemma perck_app_witness :
  perck ([frac 1 2; frac 1 1] ++ [frac 3 1]) (frac 3 4)
  = perck [frac 1 2; frac 1 1] (frac 3 4).
Proof.
  apply (perck_app [frac 1 2; frac 1 1] [frac 3 1] (frac 3 4)).
  exists 1, (frac 1 1). split; [done|by_evaluation].
Defined.

(** ** More on the profile *)

Section float_sums.
Implicit Types (v w : list float) (x y z acc : float) (i n : nat).

Lemma fadd_nan_r x : fadd x NaN = NaN.
Proof. by destruct x. Qed.

Lemma fdiv_nan_r x : fdiv x NaN = NaN.
Proof. by destruct x. Qed.

Lemma np_sum_cons x v : np_sum (x :: v) = fadd x (np_sum v).
Proof. done. Qed.

Lemma np_sum_nan v : NaN ∈ v → np_sum v = NaN.
Proof.
  induction v as [|x v IH]; [by intros ?%elem_of_nil|].
  rewrite np_sum_cons. intros [<-|Hin]%elem_of_cons; [done|].
  rewrite IH by done. apply fadd_nan_r.
Qed.

Lemma cumsum_from_length acc v : length (cumsum_from acc v) = length v.
Proof. revert acc. induction v as [|x v IH]; intros acc; simpl; auto. Qed.

End float_sums.

(** X4.  [percvar] keeps the shape of its input: the percentage vector and
    the cumulative vector both have the length of the input, whatever the
    entries are. *)
Theorem percvar_length (v : list float) :
  length (percvar v).1 = length v ∧ length (percvar v).2 = length v.
Proof.
  split; [apply percvar_fst_length|].
  etrans; [|apply percvar_fst_length]. apply cumsum_from_length.
Qed.

Lemma percvar_nan (v : list float) :
  NaN ∈ v →
  percvar v = (replicate (length v) NaN, replicate (length v) NaN).
Proof.
  intros Hnan. unfold percvar.
  assert (NaN ∈ reverse (np_sort (np_abs v))) as Hin.
  { rewrite reverse_Permutation, np_sort_Permutation. unfold np_abs.
    by apply (list_elem_of_fmap_2' fabs _ NaN). }
  rewrite (np_sum_nan _ Hin).
  assert (np_div (reverse (np_sort (np_abs v))) NaN
          = replicate (length v) NaN) as ->.
  { assert (length (reverse (np_sort (np_abs v))) = length v) as <-.
    { unfold np_abs.
      by rewrite length_reverse, np_sort_Permutation, length_fmap. }
    generalize (reverse (np_sort (np_abs v))). intros l. unfold np_div.
    induction l as [|x l IH]; [done|].
    rewrite fmap_cons, IH, fdiv_nan_r. done. }
  unfold np_cumsum. by rewrite cumsum_from_nans.
Qed.

(** X6.  One NaN in the input poisons the whole result: the sum of the
    magnitudes is NaN, so every percentage and every cumulative value is
    NaN. *)
Theorem percvar_nan_input (v : list float) :
  NaN ∈ v →
  percvar v = (replicate (length v) NaN, replicate (length v) NaN).
Proof. apply percvar_nan. Qed.

Lemma percvar_nan_input_witness :
  percvar [frac 1 2; NaN; frac 3 1] = (replicate 3 NaN, replicate 3 NaN).
Proof.
  apply (percvar_nan_input [frac 1 2; NaN; frac 3 1]).
  apply list_elem_of_further, list_elem_of_here.
Defined.

(** X7.  [percvar] reads its input as a multiset: reordering the entries
    changes neither of the returned vectors. *)
Theorem percvar_order_independent (v w : list float) :
  v ≡ₚ w → percvar v = percvar w.
Proof. apply percvar_Permutation. Qed.

Lemma percvar_order_independent_witness :
  percvar [frac 1 2; frac 3 1; frac (-2) 1]
  = percvar [frac (-2) 1; frac 1 2; frac 3 1].
Proof.
  apply (percvar_order_independent [frac 1 2; frac 3 1; frac (-2) 1]).
  symmetry. apply (Permutation_cons_append [frac 1 2; frac 3 1]).
Defined.

(** X8.  The signs of the entries are discarded, and sorting the
    magnitudes beforehand changes nothing: [percvar] returns the same pair
    on [v], on [np.abs(v)] and on [np.sort(np.abs(v))[::-1]], which is the
    comparison the notebook prints as [True]. *)
Theorem percvar_presorted (v : list float) :
  percvar (np_abs v) = percvar v ∧ percvar (eig_vals_svd v) = percvar v.
Proof.
  split; [|apply percvar_eig_vals_svd].
  apply percvar_abs_Permutation.
  assert (np_abs (np_abs v) = np_abs v) as ->; [|done].
  unfold np_abs. rewrite <-list_fmap_compose. apply list_fmap_ext.
  intros i x _. apply fabs_idemp.
Qed.

(** X11.  [perck] after [percvar] on a degenerate input.  When the
    magnitudes sum to zero or the input holds a NaN, the cumulative vector
    is all NaN and [perck] answers [0] for every threshold, as it does for
    a threshold met by the first component. *)
Theorem perck_percvar_degenerate (v : list float) (p : float) :
  np_sum (np_abs v) = Fin 0%Qc ∨ NaN ∈ v →
  perck (percvar v).2 p = 0.
Proof.
  intros [Hsum|Hnan].
  - rewrite (np_sum_abs_eq_0 v Hsum), percvar_zeros. apply perck_all_nan.
  - rewrite (percvar_nan v Hnan). apply perck_all_nan.
Qed.

Lemma perck_percvar_degenerate_witness :
  perck (percvar [Fin 0%Qc; Fin 0%Qc]).2 (frac 9 10) = 0.
Proof.
  apply (perck_percvar_degenerate [Fin 0%Qc; Fin 0%Qc] (frac 9 10)).
  left. by_evaluation.
Defined.

(** ** Centering and covariance *)

Section matrices.
Implicit Types (X T : matrix) (u v row col : list float) (x y c : float).

Lemma fmul_comm x y : fmul x y = fmul y x.
Proof. destruct x, y; simpl; try done. by rewrite Qcmult_comm. Qed.

Lemma vdot_comm u v : vdot u v = vdot v u.
Proof.
  unfold vdot. f_equal. revert v.
  induction u as [|x u IH]; intros [|y v]; simpl; [done..|].
  by rewrite fmul_comm, IH.
Qed.

Lemma fdiv_0_not_finite x : ¬ is_finite (fdiv x (Fin 0%Qc)).
Proof.
  destruct x as [a| | |]; cbn [fdiv];
    [|try destruct (bool_decide _); simpl; tauto..].
  rewrite decide_True by done.
  destruct (decide (a = 0%Qc)); [tauto|].
  destruct (bool_decide _); simpl; tauto.
Qed.

Lemma fsub_0_r x : fsub x (Fin 0%Qc) = x.
Proof.
  destruct x as [a| | |]; simpl; try done.
  unfold fsub; simpl. f_equal. ring.
Qed.

(** The transpose of a table [h r r'] indexed twice by the same list is
    the table itself as soon as [h] is symmetric. *)
Lemma transpose_symmetric (h : list float → list float → float)
    (T : list (list float)) :
  (∀ r r', h r r' = h r' r) →
  transpose ((λ r, h r <$> T) <$> T) = (λ r, h r <$> T) <$> T.
Proof.
  intros Hsym. unfold transpose.
  assert (shape1 ((λ r, h r <$> T) <$> T) = length T) as ->.
  { destruct T as [|t T]; [done|]. unfold shape1. simpl.
    by rewrite length_fmap. }
  apply list_eq. intros j.
  rewrite (list_lookup_fmap (λ r, h r <$> T) T j).
  rewrite (list_lookup_fmap (column _) (seq _ _) j).
  destruct (T !! j) as [tj|] eqn:Hj; simpl.
  - rewrite lookup_seq_lt by by eapply lookup_lt_Some. simpl. f_equal.
    unfold column. rewrite <-list_fmap_compose. apply list_fmap_ext.
    intros i r _. simpl. rewrite list_lookup_fmap, Hj. simpl. apply Hsym.
  - apply lookup_ge_None in Hj. by rewrite lookup_seq_ge.
Qed.

Lemma X_cov_unfold X :
  X_cov X =
    (λ r, (λ r', fdiv (vdot r r') (of_int (Z.of_nat (shape0 X) - 1)))
            <$> transpose X) <$> transpose X.
Proof.
  unfold X_cov, mat_div, dot. rewrite <-list_fmap_compose.
  apply list_fmap_ext. intros i r _. simpl. unfold np_div.
  by rewrite <-list_fmap_compose.
Qed.

End matrices.

(** X12.  The covariance matrix is symmetric, for every input matrix. *)
Theorem X_cov_symmetric (X : matrix) : transpose (X_cov X) = X_cov X.
Proof.
  rewrite X_cov_unfold.
  apply (transpose_symmetric
    (λ r r', fdiv (vdot r r') (of_int (Z.of_nat (shape0 X) - 1)))).
  intros r r'. by rewrite vdot_comm.
Qed.

(** X13.  With a single sample the divisor [n - 1] is zero.  Nothing is
    raised: every entry of the covariance matrix and every scaled singular
    value is NaN or an infinity. *)
Theorem single_row_not_finite (X : matrix) (s : list float) :
  shape0 X = 1 →
  Forall (Forall (λ x, ¬ is_finite x)) (X_cov X) ∧
  Forall (λ x, ¬ is_finite x) (scaled_singular_values s X).
Proof.
  intros Hn. unfold X_cov, scaled_singular_values. rewrite Hn.
  change (of_int (Z.of_nat 1 - 1)) with (Fin (Qc_of_Z 0)).
  rewrite Z2Qc_inj_0. split.
  - unfold mat_div. apply Forall_fmap, Forall_true. intros row. simpl.
    unfold np_div. apply Forall_fmap, Forall_true. intros x.
    apply fdiv_0_not_finite.
  - unfold np_div. apply Forall_fmap, Forall_true. intros x.
    apply fdiv_0_not_finite.
Qed.

Lemma single_row_not_finite_witness :
  Forall (Forall (λ x, ¬ is_finite x)) (X_cov (rows 1 [[3; -1]]%Z)) ∧
  Forall (λ x, ¬ is_finite x)
    (scaled_singular_values [frac 2 1] (rows 1 [[3; -1]]%Z)).
Proof. by apply (single_row_not_finite (rows 1 [[3; -1]]%Z) [frac 2 1]). Defined.

(** X14.  Centering an array that is already centered changes nothing. *)
Theorem X_sm_centered (X : matrix) :
  rectangular X → centered X → X_sm X = X.
Proof.
  intros Hrect Hcent. unfold X_sm. rewrite Hcent.
  rewrite <-(list_fmap_id X) at 2. apply Forall_fmap_ext.
  eapply Forall_impl; [exact Hrect|]. intros row <-. simpl.
  induction row as [|x row IH]; [done|].
  simpl. by rewrite fsub_0_r, IH.
Qed.

Lemma X_sm_centered_witness : X_sm X4 = X4.
Proof. apply (X_sm_centered X4); by_evaluation. Defined.
